(** * arduino-radar: the measurement pipeline of the sketch, verified

    The sketch [arduino-radar.ino] runs on an Arduino UNO.  On that board
    [float] is IEEE 754 binary32, [unsigned long] has 32 bits and [int] has
    16 bits.  Floats are modelled with the Standard Library's [spec_float]
    (the specification the primitive floats are checked against) at
    precision 24 and maximal exponent 128; integers are [Z] with the few
    wrap-arounds that matter written out. *)

From Stdlib Require Import ZArith String Ascii Bool Lia List Permutation Sorted.
From Stdlib Require Import SpecFloat DecimalString.
Import ListNotations.

Local Open Scope Z_scope.

(** ** binary32 *)

Definition prec : Z := 24.
Definition emax : Z := 128.

Definition float : Type := spec_float.

(** [NAN] of <math.h>; [spec_float] keeps no payload. *)
Definition NAN : float := S754_nan.

Definition isnan (x : float) : bool :=
  match x with
  | S754_nan => true
  | _ => false
  end.

(** [x > y], [x * y] and [x / y] on binary32, rounding to nearest even. *)
Definition fgt (x y : float) : bool := SFltb y x.
Definition fmul (x y : float) : float := SFmul prec emax x y.
Definition fdiv (x y : float) : float := SFdiv prec emax x y.

(** Conversion of an [unsigned long] to [float] (it rounds above 2^24). *)
Definition float_of_ulong (n : Z) : float :=
  binary_normalize prec emax n 0 false.

(** The float literals of the sketch, as the compiler rounds them:
    0.0343f is 0x3D0C7E28, 2.0f is 0x40000000, 400.0f is 0x43C80000. *)
Definition lit_0_0343 : float := S754_finite false 9207336 (-28).
Definition lit_2_0 : float := S754_finite false 8388608 (-22).
Definition lit_400_0 : float := S754_finite false 13107200 (-15).

(** ** Arrays

    A C array is a list read and written by index.  Reads and writes out of
    range do not occur in the sketch; the model returns [NAN] for such a
    read and leaves the array alone for such a write. *)

Definition aget (v : list float) (i : Z) : float :=
  nth (Z.to_nat i) v NAN.

Fixpoint aset_nat (v : list float) (i : nat) (x : float) : list float :=
  match v, i with
  | [], _ => []
  | _ :: t, O => x :: t
  | h :: t, S k => h :: aset_nat t k x
  end.

Definition aset (v : list float) (i : Z) (x : float) : list float :=
  aset_nat v (Z.to_nat i) x.

(** ** Filter: [median3_ignoreNaN] *)

Section Filter.

(** [float v[3];] is not initialised: its three slots hold whatever the
    stack held. *)
Variable junk : nat -> float.

Definition v_uninit : list float := [junk 0%nat; junk 1%nat; junk 2%nat].

(** [if (!isnan(x)) v[n++] = x;] *)
Definition push_valid (x : float) (st : list float * Z) : list float * Z :=
  let '(v, n) := st in
  if negb (isnan x) then (aset v n x, n + 1) else (v, n).

(** [while (j>=0 && v[j]>key){ v[j+1]=v[j]; j--; }]
    [j] drops by one each round and the loop stops below 0, so
    [Z.to_nat (j + 1)] rounds are enough: see [shift_loop_exit]. *)
Fixpoint shift_loop (fuel : nat) (v : list float) (key : float) (j : Z)
  : list float * Z :=
  match fuel with
  | O => (v, j)
  | S fuel' =>
      if (0 <=? j) && fgt (aget v j) key
      then shift_loop fuel' (aset v (j + 1) (aget v j)) key (j - 1)
      else (v, j)
  end.

(** [for (uint8_t i=1;i<n;i++){ float key=v[i]; int j=i-1; while ...;
     v[j+1]=key; }] *)
Fixpoint sort_loop (fuel : nat) (v : list float) (n i : Z) : list float :=
  match fuel with
  | O => v
  | S fuel' =>
      if i <? n then
        let key := aget v i in
        let j := i - 1 in
        let '(v', j') := shift_loop (Z.to_nat (j + 1)) v key j in
        sort_loop fuel' (aset v' (j' + 1) key) n (i + 1)
      else v
  end.

Definition median3_ignoreNaN (a b c : float) : float :=
  let '(v, n) := push_valid c (push_valid b (push_valid a (v_uninit, 0))) in
  if n =? 0 then NAN
  else
    let v := sort_loop (Z.to_nat (n - 1)) v n 1 in
    aget v (n / 2).

End Filter.

(** ** The board: pins, serial port, servo, clock

    The sketch acts on the board through the Arduino core ([digitalWrite],
    [delayMicroseconds], [pulseIn], [delay], [Serial], [Servo]).  Each call
    is recorded as an [event]; the only call that returns something the
    sketch looks at is [pulseIn]. *)

Inductive level := LOW | HIGH.
Inductive pin_mode := INPUT | OUTPUT.

(** What [Serial.print] and [Serial.println] are given. *)
Inductive token :=
| TInt (n : Z)                      (* print(int) *)
| TChar (c : ascii)                 (* print(char) *)
| TStr (s : string)                 (* print(const char* ) *)
| TFloat (x : float) (digits : Z).  (* print(float, digits) *)

Inductive event :=
| PinMode (pin : Z) (m : pin_mode)
| DigitalWrite (pin : Z) (l : level)
| DelayMicroseconds (us : Z)
| PulseIn (pin : Z) (l : level) (timeout : Z) (result : Z)
| ServoAttach (pin : Z)
| ServoWrite (angle : Z)
| SerialBegin (baud : Z)
| SerialPrint (t : token)
| SerialPrintln (t : token)
| Delay (ms : Z).

(** The state of the world: what the echo line will answer to each
    [pulseIn] call, how many calls were made, and what was done so far
    (oldest first). *)
Record world := mkWorld {
  echo : nat -> Z;
  pings : nat;
  trace : list event
}.

(** [unsigned long] *)
Definition ulong (n : Z) : Z := n mod 2 ^ 32.

(** The sketch runs in a state monad over [world]. *)
Definition M (A : Type) : Type := world -> A * world.

Definition ret {A} (a : A) : M A := fun w => (a, w).

Definition bind {A B} (m : M A) (k : A -> M B) : M B :=
  fun w => let '(a, w') := m w in k a w'.

Notation "x <- m ;; k" := (bind m (fun x => k))
  (at level 61, m at next level, right associativity).
Notation "m ;; k" := (bind m (fun _ => k))
  (at level 61, right associativity).

Definition emit (e : event) : M unit :=
  fun w => (tt, mkWorld (echo w) (pings w) (trace w ++ [e])).

Definition pinMode (pin : Z) (m : pin_mode) : M unit := emit (PinMode pin m).
Definition digitalWrite (pin : Z) (l : level) : M unit :=
  emit (DigitalWrite pin l).
Definition delayMicroseconds (us : Z) : M unit := emit (DelayMicroseconds us).
Definition delay (ms : Z) : M unit := emit (Delay ms).
Definition servo_attach (pin : Z) : M unit := emit (ServoAttach pin).
Definition servo_write (angle : Z) : M unit := emit (ServoWrite angle).
Definition Serial_begin (baud : Z) : M unit := emit (SerialBegin baud).
Definition Serial_print (t : token) : M unit := emit (SerialPrint t).
Definition Serial_println (t : token) : M unit := emit (SerialPrintln t).

(** [pulseIn] answers with the next measurement of the echo line, an
    [unsigned long]: the length of the pulse in microseconds, or 0 when no
    pulse was seen before the timeout. *)
Definition pulseIn (pin : Z) (l : level) (timeout : Z) : M Z :=
  fun w =>
    let r := ulong (echo w (pings w)) in
    (r, mkWorld (echo w) (S (pings w))
                (trace w ++ [PulseIn pin l timeout r])).

(** ** Constants of the sketch *)

Definition TRIG : Z := 6.
Definition ECHO : Z := 5.
Definition SERVO_PIN : Z := 8.

Definition PULSE_TIMEOUT_US : Z := 20000.
Definition SETTLE_AFTER_MOVE_MS : Z := 30.
Definition MIN_PING_PERIOD_MS : Z := 60.

Definition SOUND_CM_PER_US : float := lit_0_0343.

(** ** Ranger: [pingOnce]

    [float pingOnce(unsigned long &dur)]: the result is the returned float
    together with what was stored in [dur]. *)
Definition pingOnce : M (float * Z) :=
  digitalWrite TRIG LOW ;; delayMicroseconds 2 ;;
  digitalWrite TRIG HIGH ;; delayMicroseconds 10 ;;
  digitalWrite TRIG LOW ;;
  dur <- pulseIn ECHO HIGH PULSE_TIMEOUT_US ;;
  if dur =? 0 then ret (NAN, dur)
  else
    let d := fdiv (fmul (float_of_ulong dur) SOUND_CM_PER_US) lit_2_0 in
    if fgt d lit_400_0 then ret (NAN, dur)
    else ret (d, dur).

(** ** Sweeper: [setup], [measureAndPrintAtAngle], [loop] *)

Definition setup : M unit :=
  pinMode TRIG OUTPUT ;;
  pinMode ECHO INPUT ;;
  digitalWrite TRIG LOW ;;
  servo_attach SERVO_PIN ;;
  servo_write 0 ;;
  Serial_begin 115200 ;;
  delay 1000 ;;
  Serial_println (TStr "START").

(** [for (int a = lo; a <= hi; ++a) body(a);]  and
    [for (int a = hi; a >= lo; --a) body(a);].  The fuel bounds the number
    of tests of the condition; [for_up_each] and [for_down_each] show that
    a loop with fuel to spare ends on its condition, not for want of fuel.
    [a] stays within -1..181, far from the ends of a 16-bit [int]. *)
Fixpoint for_up (fuel : nat) (a hi : Z) (body : Z -> M unit) : M unit :=
  match fuel with
  | O => ret tt
  | S fuel' =>
      if a <=? hi then body a ;; for_up fuel' (a + 1) hi body else ret tt
  end.

Fixpoint for_down (fuel : nat) (a lo : Z) (body : Z -> M unit) : M unit :=
  match fuel with
  | O => ret tt
  | S fuel' =>
      if a >=? lo then body a ;; for_down fuel' (a - 1) lo body else ret tt
  end.

Section Sweeper.

(** What the stack holds where the filter finds its array. *)
Variable junk : nat -> float.

Definition measureAndPrintAtAngle (angle : Z) : M unit :=
  servo_write angle ;;
  delay SETTLE_AFTER_MOVE_MS ;;
  p1 <- pingOnce ;; delay 10 ;;
  p2 <- pingOnce ;; delay 10 ;;
  p3 <- pingOnce ;;
  let dmed := median3_ignoreNaN junk (fst p1) (fst p2) (fst p3) in
  Serial_print (TInt angle) ;;
  Serial_print (TChar ",") ;;
  (if isnan dmed then Serial_println (TStr "NA")
   else Serial_println (TFloat dmed 2)) ;;
  delay MIN_PING_PERIOD_MS.

Definition loop : M unit :=
  for_up 182 0 180 measureAndPrintAtAngle ;;
  for_down 182 180 0 measureAndPrintAtAngle.

(** The Arduino core runs [setup] once and then [loop] again and again:
    [loops n] is [n] calls of [loop] in a row, [sketch n] the run of the
    board from power-up to the end of the [n]-th call. *)
Fixpoint loops (n : nat) : M unit :=
  match n with
  | O => ret tt
  | S n' => loop ;; loops n'
  end.

Definition sketch (n : nat) : M unit := setup ;; loops n.

End Sweeper.

(** The world at power-up, given what the echo line will answer. *)
Definition boot (e : nat -> Z) : world := mkWorld e 0 [].

(** ** Reading a trace *)

(** The lines the serial port has carried: a line is what was printed since
    the previous [println], up to and including the next one. *)
Fixpoint lines_from (cur : list token) (tr : list event) : list (list token) :=
  match tr with
  | [] => []
  | SerialPrint t :: tr' => lines_from (cur ++ [t]) tr'
  | SerialPrintln t :: tr' => (cur ++ [t]) :: lines_from [] tr'
  | _ :: tr' => lines_from cur tr'
  end.

Definition serial_lines (tr : list event) : list (list token) :=
  lines_from [] tr.

(** The angles the servo was sent to, in order. *)
Fixpoint commanded_angles (tr : list event) : list Z :=
  match tr with
  | [] => []
  | ServoWrite a :: tr' => a :: commanded_angles tr'
  | _ :: tr' => commanded_angles tr'
  end.

(** The blocking waits of [delay], in order, in milliseconds. *)
Fixpoint delays (tr : list event) : list Z :=
  match tr with
  | [] => []
  | Delay ms :: tr' => ms :: delays tr'
  | _ :: tr' => delays tr'
  end.

(** The text of a line.  How [Serial] writes a float with a given number of
    fraction digits belongs to the Arduino core and is left open. *)
Section Text.

Variable print_float : float -> Z -> string.

Definition token_text (t : token) : string :=
  match t with
  | TInt n => NilZero.string_of_int (Z.to_int n)
  | TChar c => String c EmptyString
  | TStr s => s
  | TFloat x digits => print_float x digits
  end.

Definition line_text (l : list token) : string :=
  fold_right (fun t s => (token_text t ++ s)%string) EmptyString l.

End Text.

(** ** The words of the specification *)

(** A Reading is a distance or the invalid marker; the sketch encodes the
    marker as NaN. *)
Inductive reading :=
| Invalid
| Distance (cm : float).

Definition float_of_reading (r : reading) : float :=
  match r with
  | Invalid => NAN
  | Distance cm => cm
  end.

(** Ranger, as the specification words it: no echo (duration 0) is invalid;
    otherwise distance = (duration * 0.0343) / 2, invalid above 400 cm. *)
Definition Ranger_distance (duration_us : Z) : float :=
  fdiv (fmul (float_of_ulong duration_us) lit_0_0343) lit_2_0.

Definition Ranger (duration_us : Z) : reading :=
  if duration_us =? 0 then Invalid
  else if fgt (Ranger_distance duration_us) lit_400_0 then Invalid
  else Distance (Ranger_distance duration_us).

(** ** Ordering floats *)

(** Where a valid float stands on the line: its class first (-inf, negative,
    zero, positive, +inf), then its exponent, then its mantissa.  Comparing
    floats is comparing these keys: see [SFcompare_key]. *)
Definition fkey (x : float) : Z * Z * Z :=
  match x with
  | S754_infinity true => (-2, 0, 0)
  | S754_finite true m e => (-1, - e, Z.neg m)
  | S754_zero _ => (0, 0, 0)
  | S754_nan => (0, 0, 0)
  | S754_finite false m e => (1, e, Z.pos m)
  | S754_infinity false => (2, 0, 0)
  end.

Definition key_compare (k1 k2 : Z * Z * Z) : comparison :=
  let '(c1, e1, m1) := k1 in
  let '(c2, e2, m2) := k2 in
  match c1 ?= c2 with
  | Eq => match e1 ?= e2 with Eq => m1 ?= m2 | r => r end
  | r => r
  end.

Definition key_lt (k1 k2 : Z * Z * Z) : Prop :=
  let '(c1, e1, m1) := k1 in
  let '(c2, e2, m2) := k2 in
  c1 < c2 \/ (c1 = c2 /\ (e1 < e2 \/ (e1 = e2 /\ m1 < m2))).

Definition key_eq (k1 k2 : Z * Z * Z) : Prop :=
  let '(c1, e1, m1) := k1 in
  let '(c2, e2, m2) := k2 in
  c1 = c2 /\ e1 = e2 /\ m1 = m2.

(** A float that is not NaN and carries the sign +. *)
Definition plus_signed (x : float) : bool :=
  match x with
  | S754_zero false | S754_infinity false | S754_finite false _ _ => true
  | _ => false
  end.

(** ** The Filter and the sweep, as specified *)

(** The valid samples among the inputs of the Filter, in input order. *)
Definition valid_samples (l : list float) : list float :=
  filter (fun x => negb (isnan x)) l.

(** The selection the Filter makes among its valid samples, as a decision
    tree on their comparisons. *)
Definition median_of (l : list float) : float :=
  match l with
  | [x] => x
  | [x; y] => if fgt x y then x else y
  | [x; y; z] =>
      if fgt x y
      then (if fgt x z then (if fgt y z then y else z) else x)
      else (if fgt y z then (if fgt x z then x else z) else y)
  | _ => NAN
  end.

(** Ascending order of valid floats. *)
Definition fle (x y : float) : Prop := SFleb x y = true.

(** What the [p]-th [pulseIn] call answers, and the sample made of it. *)
Definition answer (e : nat -> Z) (p : nat) : Z := ulong (e p).

Definition sample (e : nat -> Z) (p : nat) : float :=
  float_of_reading (Ranger (answer e p)).

(** One ping on the wires. *)
Definition ping_events (r : Z) : list event :=
  [DigitalWrite 6 LOW; DelayMicroseconds 2;
   DigitalWrite 6 HIGH; DelayMicroseconds 10;
   DigitalWrite 6 LOW; PulseIn 5 HIGH 20000 r].

(** The passes of the sweep. *)
Definition up_from (a : Z) (len : nat) : list Z :=
  map (fun i => a + Z.of_nat i) (seq 0 len).

Definition down_from (a : Z) (len : nat) : list Z :=
  map (fun i => a - Z.of_nat i) (seq 0 len).

Definition ascending : list Z := up_from 0 181.
Definition descending : list Z := down_from 180 181.

(** The angle of the [k]-th visit (from 0) as the sketch makes them: both
    passes include both ends, so a cycle has 362 visits. *)
Definition sweep_angle (k : nat) : Z :=
  let r := Z.of_nat k mod 362 in
  if r <=? 180 then r else 361 - r.

(** The sequence 0,1,...,180,179,...,1,0,1,... with each end once. *)
Definition triangle_angle (k : nat) : Z :=
  let r := Z.of_nat k mod 360 in
  if r <=? 180 then r else 360 - r.

(** The angles of the report lines, in order. *)
Fixpoint reported_angles (tr : list event) : list Z :=
  match tr with
  | [] => []
  | SerialPrint (TInt a) :: tr' => a :: reported_angles tr'
  | _ :: tr' => reported_angles tr'
  end.

(** [each l body] runs [body] on the elements of [l] in order. *)
Fixpoint each (l : list Z) (body : Z -> M unit) : M unit :=
  match l with
  | [] => ret tt
  | a :: l' => body a ;; each l' body
  end.

Section Expected.

Variable junk : nat -> float.

(** The filtered distance of the visit whose first ping is the [p]-th. *)
Definition filtered (e : nat -> Z) (p : nat) : float :=
  median3_ignoreNaN junk (sample e p) (sample e (1 + p)) (sample e (2 + p)).

(** The events of one measure-and-report cycle at [angle], when its first
    ping is the [p]-th, with the value token [v] on the report line. *)
Definition cycle_events (angle : Z) (e : nat -> Z) (p : nat) (v : token)
  : list event :=
  [ServoWrite angle; Delay 30]
    ++ ping_events (answer e p) ++ [Delay 10]
    ++ ping_events (answer e (1 + p)) ++ [Delay 10]
    ++ ping_events (answer e (2 + p))
    ++ [SerialPrint (TInt angle); SerialPrint (TChar ","); SerialPrintln v]
    ++ [Delay 60].

Definition value_token (d : float) : token :=
  if isnan d then TStr "NA" else TFloat d 2.

(** The events of the visits of [angles] in a row. *)
Fixpoint visits_events (angles : list Z) (e : nat -> Z) (p : nat)
  : list event :=
  match angles with
  | [] => []
  | a :: rest =>
      cycle_events a e p (value_token (filtered e p))
        ++ visits_events rest e (3 + p)
  end.

(** The report line of the [k]-th visit of a run. *)
Definition report_line (e : nat -> Z) (k : nat) : list token :=
  [TInt (sweep_angle k); TChar ","; value_token (filtered e (3 * k))].

End Expected.

(** What a program adds to the trace when run from [w]. *)
Definition events_of {A} (m : M A) (w : world) : list event :=
  skipn (length (trace w)) (trace (snd (m w))).

(** What [setup] does. *)
Definition setup_events : list event :=
  [PinMode 6 OUTPUT; PinMode 5 INPUT; DigitalWrite 6 LOW; ServoAttach 8;
   ServoWrite 0; SerialBegin 115200; Delay 1000; SerialPrintln (TStr "START")].

(** The angles of [n] calls of [loop]. *)
Definition sweep (n : nat) : list Z :=
  concat (repeat (ascending ++ descending) n).

(** Sample values: 10, 20 and 30 cm. *)
Definition f10 : float := S754_finite false 10485760 (-20).
Definition f20 : float := S754_finite false 10485760 (-19).
Definition f30 : float := S754_finite false 15728640 (-19).

(** An echo line that never answers, and a stack full of zeros. *)
Definition silent : nat -> Z := fun _ => 0.
Definition zeros : nat -> float := fun _ => S754_zero false.

(** ** Proof steps used more than once *)

(** Runs the filter on samples whose validity is known, splitting on each
    comparison the sort makes. *)
Ltac step_filter :=
  match goal with
  | |- context [fgt ?x ?y] =>
      is_var x; is_var y;
      let E := fresh "E" in destruct (fgt x y) eqn:E; cbv -[fgt]
  end.

Ltac run_filter :=
  unfold median3_ignoreNaN, push_valid, v_uninit, valid_samples, median_of,
    filter;
  repeat match goal with H : isnan _ = _ |- _ => rewrite H end;
  cbv -[fgt]; repeat step_filter; try reflexivity.

(** Permutations of three elements. *)
Ltac perm3 :=
  first [ apply Permutation_refl
        | apply perm_swap
        | apply perm_skip, perm_swap
        | apply Permutation_sym, (Permutation_rev [_; _; _])
        | apply Permutation_sym, (Permutation_cons_append [_; _])
        | apply (Permutation_cons_append [_; _]) ].

(* ================================================================= *)
(** * Facts about binary32 *)

Lemma SFcompare_antisym (x y : float) :
  SFcompare y x = option_map CompOpp (SFcompare x y).
Proof.
  destruct x as [sx|sx| |sx mx ex], y as [sy|sy| |sy my ey]; simpl;
    try reflexivity;
    try (destruct sx; reflexivity); try (destruct sy; reflexivity);
    try (destruct sx, sy; reflexivity).
  assert (Hm : Pos.compare_cont Eq my mx = CompOpp (Pos.compare_cont Eq mx my))
    by (symmetry; apply (Pos.compare_cont_antisym mx my Eq)).
  destruct sx, sy; try reflexivity;
    rewrite (Z.compare_antisym ex ey), Hm;
    destruct (ex ?= ey); simpl; try reflexivity;
    destruct (Pos.compare_cont Eq mx my); reflexivity.
Qed.

Lemma SFcompare_valid (x y : float) :
  isnan x = false -> isnan y = false -> exists c, SFcompare x y = Some c.
Proof.
  destruct x, y; try discriminate; intros _ _; simpl; eauto.
Qed.

Lemma fle_valid (x y : float) : fle x y -> isnan x = false /\ isnan y = false.
Proof.
  unfold fle, SFleb. destruct x, y; simpl; try discriminate; auto.
Qed.

Lemma fgt_true_le (x y : float) : fgt x y = true -> fle y x.
Proof.
  unfold fgt, fle, SFltb, SFleb.
  destruct (SFcompare y x) as [[]|]; congruence.
Qed.

Lemma fgt_false_le (x y : float) :
  isnan x = false -> isnan y = false -> fgt x y = false -> fle x y.
Proof.
  intros Hx Hy. unfold fgt, fle, SFltb, SFleb.
  rewrite (SFcompare_antisym x y).
  destruct (SFcompare_valid x y Hx Hy) as [c ->].
  destruct c; simpl; congruence.
Qed.

Lemma fle_not_fgt (x y : float) : fle x y -> fgt x y = false.
Proof.
  unfold fgt, fle, SFltb, SFleb. rewrite (SFcompare_antisym x y).
  destruct (SFcompare x y) as [[]|]; simpl; congruence.
Qed.

Lemma fle_not_lt_eq (x y : float) :
  fle x y -> SFltb x y = false -> SFeqb x y = true /\ SFeqb y x = true.
Proof.
  unfold fle, SFleb, SFltb, SFeqb. rewrite (SFcompare_antisym x y).
  destruct (SFcompare x y) as [[]|]; simpl; auto; congruence.
Qed.

Lemma SFltb_irrefl_eq (x y : float) :
  SFltb x y = true -> SFeqb x y = false.
Proof.
  unfold SFltb, SFeqb. destruct (SFcompare x y) as [[]|]; congruence.
Qed.

Lemma SFeqb_refl_of_le (x y : float) : fle x y -> SFeqb y y = true.
Proof.
  intros H. destruct (fle_valid x y H) as [_ Hy].
  unfold SFeqb. pose proof (SFcompare_antisym y y) as Ha.
  destruct (SFcompare_valid y y Hy Hy) as [c Hc]. rewrite Hc in *.
  destruct c; simpl in Ha; congruence.
Qed.

(** Comparison through keys. *)

Lemma SFcompare_key (x y : float) :
  isnan x = false -> isnan y = false ->
  SFcompare x y = Some (key_compare (fkey x) (fkey y)).
Proof.
  destruct x as [sx|sx| |sx mx ex], y as [sy|sy| |sy my ey];
    try discriminate; intros _ _;
    try (destruct sx; reflexivity); try (destruct sy; reflexivity);
    try (destruct sx, sy; reflexivity).
  destruct sx, sy; try reflexivity.
  cbn [SFcompare fkey key_compare]. change (-1 ?= -1) with Eq. cbv iota.
  rewrite Z.compare_opp, (Z.compare_antisym ey ex).
  destruct (ey ?= ex); reflexivity.
Qed.

Lemma key_compare_spec k1 k2 :
  match key_compare k1 k2 with
  | Lt => key_lt k1 k2
  | Eq => key_eq k1 k2
  | Gt => key_lt k2 k1
  end.
Proof.
  destruct k1 as [[c1 e1] m1], k2 as [[c2 e2] m2]. unfold key_compare, key_lt, key_eq.
  destruct (Z.compare_spec c1 c2); try lia.
  destruct (Z.compare_spec e1 e2); try lia.
  destruct (Z.compare_spec m1 m2); lia.
Qed.

Lemma fgt_key (x y : float) (b : bool) :
  isnan x = false -> isnan y = false -> fgt x y = b ->
  if b then key_lt (fkey y) (fkey x)
  else key_lt (fkey x) (fkey y) \/ key_eq (fkey x) (fkey y).
Proof.
  intros Hx Hy. unfold fgt, SFltb. rewrite (SFcompare_key y x Hy Hx).
  pose proof (key_compare_spec (fkey y) (fkey x)) as H.
  destruct (key_compare (fkey y) (fkey x)); intros <-; auto.
  right. destruct (fkey x) as [[? ?] ?], (fkey y) as [[? ?] ?]. unfold key_eq in *. lia.
Qed.

Lemma fle_key (x y : float) :
  fle x y -> key_lt (fkey x) (fkey y) \/ key_eq (fkey x) (fkey y).
Proof.
  intros H. destruct (fle_valid x y H) as [Hx Hy]. revert H.
  unfold fle, SFleb. rewrite (SFcompare_key x y Hx Hy).
  pose proof (key_compare_spec (fkey x) (fkey y)) as H.
  destruct (key_compare (fkey x) (fkey y)); auto; discriminate.
Qed.

Lemma key_eq_SFeqb (x y : float) :
  isnan x = false -> isnan y = false -> key_eq (fkey x) (fkey y) -> SFeqb x y = true.
Proof.
  intros Hx Hy H. unfold SFeqb. rewrite (SFcompare_key x y Hx Hy).
  pose proof (key_compare_spec (fkey x) (fkey y)) as H'.
  destruct (key_compare (fkey x) (fkey y)); auto;
  destruct (fkey x) as [[? ?] ?], (fkey y) as [[? ?] ?]; unfold key_eq, key_lt in *; lia.
Qed.

Lemma fle_trans x y z : fle x y -> fle y z -> fle x z.
Proof.
  intros H1 H2. destruct (fle_valid _ _ H1) as [Hx Hy], (fle_valid _ _ H2) as [_ Hz].
  apply fle_key in H1, H2. unfold fle, SFleb. rewrite (SFcompare_key x z Hx Hz).
  pose proof (key_compare_spec (fkey x) (fkey z)) as H.
  destruct (key_compare (fkey x) (fkey z)); auto.
  destruct (fkey x) as [[? ?] ?], (fkey y) as [[? ?] ?], (fkey z) as [[? ?] ?]; unfold key_eq, key_lt in *; lia.
Qed.

Lemma SFeqb_refl (x : float) : isnan x = false -> SFeqb x x = true.
Proof.
  intros H. apply key_eq_SFeqb; auto.
  destruct (fkey x) as [[? ?] ?]. repeat split.
Qed.

(** Rounding never makes a NaN out of a mantissa that is not negative. *)

Lemma shr_1_nonneg mrs : 0 <= shr_m mrs -> 0 <= shr_m (shr_1 mrs).
Proof.
  destruct mrs as [m r s]. simpl. intros H.
  destruct m as [|[p|p|]|p]; simpl; lia.
Qed.

Lemma iter_shr_1_nonneg p : forall mrs,
  0 <= shr_m mrs -> 0 <= shr_m (iter_pos shr_1 p mrs).
Proof.
  induction p as [p IH|p IH|]; intros mrs H; simpl.
  - apply IH, IH, shr_1_nonneg, H.
  - apply IH, IH, H.
  - apply shr_1_nonneg, H.
Qed.

Lemma shr_fexp_nonneg pr em m e l :
  0 <= m -> 0 <= shr_m (fst (shr_fexp pr em m e l)).
Proof.
  intros H. unfold shr_fexp, shr.
  assert (H0 : 0 <= shr_m (shr_record_of_loc m l))
    by (destruct l as [|[]]; exact H).
  destruct (fexp pr em (Zdigits2 m + e) - e); simpl; auto.
  apply iter_shr_1_nonneg, H0.
Qed.

Lemma round_nearest_even_nonneg m l : 0 <= m -> 0 <= round_nearest_even m l.
Proof.
  intros H. destruct l as [|[]]; simpl; try lia.
  destruct (Z.even m); lia.
Qed.

Lemma binary_round_aux_valid pr em s m e l :
  0 <= m -> isnan (binary_round_aux pr em s m e l) = false.
Proof.
  intros H. unfold binary_round_aux.
  pose proof (shr_fexp_nonneg pr em m e l H) as H1.
  destruct (shr_fexp pr em m e l) as [mrs' e']. simpl in H1.
  pose proof (shr_fexp_nonneg pr em _ e' loc_Exact
                (round_nearest_even_nonneg _ (loc_of_shr_record mrs') H1)) as H2.
  destruct (shr_fexp pr em _ e' loc_Exact) as [mrs'' e'']. simpl in H2.
  destruct (shr_m mrs'') as [|p|p]; try reflexivity.
  - destruct (e'' <=? em - pr); reflexivity.
  - lia.
Qed.

Lemma float_of_ulong_valid n : isnan (float_of_ulong n) = false.
Proof.
  unfold float_of_ulong, binary_normalize, binary_round.
  destruct n as [|p|p]; try reflexivity;
    destruct (shl_align _ _ _) as [mz ez]; apply binary_round_aux_valid; lia.
Qed.

Lemma fmul_finite_valid x s m e :
  isnan x = false -> isnan (fmul x (S754_finite s m e)) = false.
Proof.
  destruct x as [sx|sx| |sx mx ex]; try discriminate; intros _; try reflexivity.
  apply binary_round_aux_valid. lia.
Qed.

Lemma fdiv_finite_valid x s m e :
  isnan x = false -> isnan (fdiv x (S754_finite s m e)) = false.
Proof.
  destruct x as [sx|sx| |sx mx ex]; try discriminate; intros _; try reflexivity.
  unfold fdiv, SFdiv, SFdiv_core_binary.
  set (m' := match _ with Z.pos _ => _ | _ => _ end : Z).
  assert (Hm : 0 <= m').
  { subst m'. destruct (_ - _ - _) as [|p|p]; try lia.
    apply Z.shiftl_nonneg. lia. }
  pose proof (Z_div_mod m' (Z.pos m) eq_refl) as Hd.
  destruct (Z.div_eucl m' (Z.pos m)) as [q r].
  apply binary_round_aux_valid. nia.
Qed.

Lemma Ranger_distance_valid d : isnan (Ranger_distance d) = false.
Proof.
  unfold Ranger_distance, lit_2_0, lit_0_0343.
  apply fdiv_finite_valid, fmul_finite_valid, float_of_ulong_valid.
Qed.

(** Nor does it change the sign. *)

Lemma binary_round_aux_plus pr em m e l :
  0 <= m -> plus_signed (binary_round_aux pr em false m e l) = true.
Proof.
  intros H. pose proof (binary_round_aux_valid pr em false m e l H) as Hv.
  revert Hv. unfold binary_round_aux.
  destruct (shr_fexp pr em m e l) as [mrs' e'].
  destruct (shr_fexp pr em _ e' loc_Exact) as [mrs'' e''].
  destruct (shr_m mrs'') as [|p|p]; try reflexivity; try discriminate.
  destruct (e'' <=? em - pr); reflexivity.
Qed.

Lemma float_of_ulong_plus n : 0 <= n -> plus_signed (float_of_ulong n) = true.
Proof.
  unfold float_of_ulong, binary_normalize, binary_round.
  destruct n as [|p|p]; intros H; try reflexivity; try lia.
  destruct (shl_align _ _ _) as [mz ez]. apply binary_round_aux_plus. lia.
Qed.

Lemma fmul_finite_plus x m e :
  plus_signed x = true -> plus_signed (fmul x (S754_finite false m e)) = true.
Proof.
  destruct x as [[]|[]| |[] mx ex]; try discriminate; intros _;
    try reflexivity.
  apply binary_round_aux_plus. lia.
Qed.

Lemma fdiv_finite_plus x m e :
  plus_signed x = true -> plus_signed (fdiv x (S754_finite false m e)) = true.
Proof.
  destruct x as [[]|[]| |[] mx ex]; try discriminate; intros _;
    try reflexivity.
  unfold fdiv, SFdiv, SFdiv_core_binary.
  set (m' := match _ with Z.pos _ => _ | _ => _ end : Z).
  assert (Hm : 0 <= m').
  { subst m'. destruct (_ - _ - _) as [|p|p]; try lia.
    apply Z.shiftl_nonneg. lia. }
  pose proof (Z_div_mod m' (Z.pos m) eq_refl) as Hd.
  destruct (Z.div_eucl m' (Z.pos m)) as [q r].
  apply binary_round_aux_plus. nia.
Qed.

Lemma Ranger_distance_plus d :
  0 <= d -> plus_signed (Ranger_distance d) = true.
Proof.
  intros H. unfold Ranger_distance, lit_2_0, lit_0_0343.
  apply fdiv_finite_plus, fmul_finite_plus, float_of_ulong_plus, H.
Qed.

Lemma plus_signed_ge_zero x : plus_signed x = true -> fle (S754_zero false) x.
Proof. destruct x as [[]|[]| |[] m e]; try discriminate; reflexivity. Qed.

(* ================================================================= *)
(** * Filter *)

(** ** The loops end on their condition *)

Lemma shift_loop_more (key : float) (fuel : nat) : forall v j,
  (Z.to_nat (j + 1) <= fuel)%nat ->
  shift_loop (S fuel) v key j = shift_loop fuel v key j.
Proof.
  induction fuel as [|fuel IH]; intros v j Hf.
  - simpl. replace (0 <=? j) with false by (symmetry; apply Z.leb_gt; lia).
    reflexivity.
  - change (shift_loop (S (S fuel)) v key j)
      with (if (0 <=? j) && fgt (aget v j) key
            then shift_loop (S fuel) (aset v (j + 1) (aget v j)) key (j - 1)
            else (v, j)).
    change (shift_loop (S fuel) v key j)
      with (if (0 <=? j) && fgt (aget v j) key
            then shift_loop fuel (aset v (j + 1) (aget v j)) key (j - 1)
            else (v, j)).
    destruct (0 <=? j) eqn:Ej; [|reflexivity].
    apply Z.leb_le in Ej. destruct (fgt (aget v j) key); [|reflexivity].
    simpl andb. cbv iota. apply IH. lia.
Qed.

Lemma shift_loop_fuel (key : float) (k : nat) : forall v j,
  shift_loop (k + Z.to_nat (j + 1)) v key j
  = shift_loop (Z.to_nat (j + 1)) v key j.
Proof.
  induction k as [|k IH]; intros v j; [reflexivity|].
  cbn [Nat.add]. rewrite shift_loop_more by lia. apply IH.
Qed.

(** When the inner loop is left, its condition is false. *)
Lemma shift_loop_exit (key : float) (fuel : nat) : forall v j,
  (Z.to_nat (j + 1) <= fuel)%nat ->
  let '(v', j') := shift_loop fuel v key j in
  (0 <=? j') && fgt (aget v' j') key = false.
Proof.
  induction fuel as [|fuel IH]; intros v j Hf.
  - simpl. replace (0 <=? j) with false by (symmetry; apply Z.leb_gt; lia).
    reflexivity.
  - simpl. destruct ((0 <=? j) && fgt (aget v j) key) eqn:E; [|exact E].
    apply andb_prop in E. destruct E as [Ej _]. apply Z.leb_le in Ej.
    apply IH. lia.
Qed.

Lemma sort_loop_more (n : Z) (fuel : nat) : forall v i,
  (Z.to_nat (n - i) <= fuel)%nat ->
  sort_loop (S fuel) v n i = sort_loop fuel v n i.
Proof.
  induction fuel as [|fuel IH]; intros v i Hf.
  - simpl. replace (i <? n) with false by (symmetry; apply Z.ltb_ge; lia).
    reflexivity.
  - change (sort_loop (S (S fuel)) v n i)
      with (if i <? n then
              let '(v', j') :=
                shift_loop (Z.to_nat (i - 1 + 1)) v (aget v i) (i - 1) in
              sort_loop (S fuel) (aset v' (j' + 1) (aget v i)) n (i + 1)
            else v).
    change (sort_loop (S fuel) v n i)
      with (if i <? n then
              let '(v', j') :=
                shift_loop (Z.to_nat (i - 1 + 1)) v (aget v i) (i - 1) in
              sort_loop fuel (aset v' (j' + 1) (aget v i)) n (i + 1)
            else v).
    destruct (i <? n) eqn:Ei; [|reflexivity]. apply Z.ltb_lt in Ei.
    destruct (shift_loop _ v (aget v i) (i - 1)) as [v' j'].
    apply IH. lia.
Qed.

Lemma sort_loop_fuel (n : Z) (k : nat) : forall v i,
  sort_loop (k + Z.to_nat (n - i)) v n i = sort_loop (Z.to_nat (n - i)) v n i.
Proof.
  induction k as [|k IH]; intros v i; [reflexivity|].
  cbn [Nat.add]. rewrite sort_loop_more by lia. apply IH.
Qed.

(** ** What the filter selects *)

(** The array code computes the decision tree [median_of] on the valid
    samples, whatever the array held before. *)
Lemma median3_closed_form (junk : nat -> float) (a b c : float) :
  median3_ignoreNaN junk a b c = median_of (valid_samples [a; b; c]).
Proof.
  destruct (isnan a) eqn:Ha, (isnan b) eqn:Hb, (isnan c) eqn:Hc; run_filter.
Qed.

Lemma median3_junk_irrelevant (junk junk' : nat -> float) (a b c : float) :
  median3_ignoreNaN junk a b c = median3_ignoreNaN junk' a b c.
Proof. now rewrite !median3_closed_form. Qed.

Lemma valid_samples_valid (l : list float) (x : float) :
  In x (valid_samples l) -> In x l /\ isnan x = false.
Proof.
  unfold valid_samples. rewrite filter_In. intros [H1 H2]. split; [exact H1|].
  now destruct (isnan x).
Qed.

(** A single valid sample is returned as it is, wherever it stands. *)
Lemma median3_one_valid (junk : nat -> float) (s1 s2 s3 v : float) :
  valid_samples [s1; s2; s3] = [v] -> median3_ignoreNaN junk s1 s2 s3 = v.
Proof. intros H. now rewrite median3_closed_form, H. Qed.

(** Of two valid samples the filter keeps a largest one. *)
Lemma median_of_two (x y a b : float) :
  Permutation [x; y] [a; b] -> fle a b ->
  let r := median_of [x; y] in
  SFeqb r b = true /\ (r = a \/ r = b) /\
  (SFltb a b = true -> r = b) /\
  (forall m, SFltb m b = true -> r <> m).
Proof.
  intros HP Hle. cbn [median_of].
  assert (Hbb : SFeqb b b = true) by exact (SFeqb_refl_of_le a b Hle).
  assert (Hb : forall m, SFltb m b = true -> b <> m).
  { intros m Hm E. subst m. apply SFltb_irrefl_eq in Hm. congruence. }
  apply Permutation_length_2_inv in HP.
  destruct HP as [HP|HP]; injection HP as <- <-.
  - rewrite (fle_not_fgt _ _ Hle). auto.
  - change (fgt b a) with (SFltb a b). destruct (SFltb a b) eqn:Elt.
    + auto.
    + destruct (fle_not_lt_eq _ _ Hle Elt) as [Heq _].
      repeat split; auto; try discriminate.
      intros m Hm E. subst m. congruence.
Qed.

(** ** The selection is the sorted one *)

Lemma perm3_inv {A} (x y z p q r : A) :
  Permutation [x; y; z] [p; q; r] ->
  [x; y; z] = [p; q; r] \/ [x; y; z] = [p; r; q] \/
  [x; y; z] = [q; p; r] \/ [x; y; z] = [q; r; p] \/
  [x; y; z] = [r; p; q] \/ [x; y; z] = [r; q; p].
Proof.
  intros HP.
  assert (Hx : In x [p; q; r]) by (apply (Permutation_in x HP); now left).
  destruct Hx as [<-|[<-|[<-|[]]]].
  - apply Permutation_cons_inv, Permutation_sym, Permutation_length_2_inv in HP.
    destruct HP as [HP|HP]; injection HP as -> ->; auto.
  - assert (HP' : Permutation (q :: [y; z]) (q :: [p; r]))
      by (eapply Permutation_trans; [exact HP | apply perm_swap]).
    apply Permutation_cons_inv, Permutation_sym, Permutation_length_2_inv in HP'.
    destruct HP' as [HP'|HP']; injection HP' as -> ->; auto 6.
  - assert (HP' : Permutation (r :: [y; z]) (r :: [p; q]))
      by (eapply Permutation_trans;
          [exact HP | apply Permutation_sym, (Permutation_cons_append [p; q] r)]).
    apply Permutation_cons_inv, Permutation_sym, Permutation_length_2_inv in HP'.
    destruct HP' as [HP'|HP']; injection HP' as -> ->; auto 7.
Qed.

Lemma Sorted_2_inv (x y : float) (l : list float) :
  Sorted fle (x :: y :: l) -> fle x y /\ Sorted fle (y :: l).
Proof.
  intros H. inversion H as [|? ? Hs Hr]; subst. inversion Hr; subst. auto.
Qed.

Ltac key_facts :=
  repeat match goal with
         | H : fgt ?u ?v = _ |- _ =>
             apply fgt_key in H; [cbv iota in H | assumption | assumption]
         | H : fle ?u ?v |- _ => apply fle_key in H
         end.

Ltac key_split :=
  repeat match goal with
         | |- context [fkey ?u] =>
             is_var u; destruct (fkey u) as [[? ?] ?]
         | H : context [fkey ?u] |- _ =>
             is_var u; destruct (fkey u) as [[? ?] ?]
         end;
  unfold key_lt, key_eq in *.

Ltac order_keys :=
  key_facts; apply key_eq_SFeqb; [assumption | assumption |];
  key_split; lia.

Lemma median_of_sorted_2 (p q : float) (l : list float) :
  isnan p = false -> isnan q = false ->
  Permutation l [p; q] -> Sorted fle l ->
  SFeqb (median_of [p; q]) (nth 1 l NAN) = true.
Proof.
  intros Hp Hq HP HS.
  destruct l as [|x [|y [|z l]]];
    try (apply Permutation_length in HP; discriminate).
  apply Sorted_2_inv in HS. destruct HS as [Hxy _].
  apply Permutation_sym, Permutation_length_2_inv in HP.
  cbn [nth median_of].
  destruct HP as [HP|HP]; injection HP as -> ->;
    destruct (fgt p q) eqn:E; order_keys.
Qed.

Lemma median_of_sorted_3 (p q r : float) (l : list float) :
  isnan p = false -> isnan q = false -> isnan r = false ->
  Permutation l [p; q; r] -> Sorted fle l ->
  SFeqb (median_of [p; q; r]) (nth 1 l NAN) = true.
Proof.
  intros Hp Hq Hr HP HS.
  destruct l as [|x [|y [|z [|t l]]]];
    try (apply Permutation_length in HP; discriminate).
  apply Sorted_2_inv in HS. destruct HS as [Hxy HS].
  apply Sorted_2_inv in HS. destruct HS as [Hyz _].
  apply perm3_inv in HP. cbn [nth median_of].
  destruct HP as [HP|[HP|[HP|[HP|[HP|HP]]]]]; injection HP as -> -> ->;
    destruct (fgt p q) eqn:E1, (fgt p r) eqn:E2, (fgt q r) eqn:E3;
    order_keys.
Qed.

(** The filter as the specification words it: drop the invalid samples,
    sort the others in ascending order, take the element at index n/2. *)
Lemma median3_sorted_index (junk : nat -> float) (a b c : float)
      (l : list float) :
  Permutation l (valid_samples [a; b; c]) -> Sorted fle l -> l <> [] ->
  SFeqb (median3_ignoreNaN junk a b c) (nth (length l / 2) l NAN) = true.
Proof.
  intros HP HS Hne. rewrite median3_closed_form.
  pose proof (Permutation_length HP) as HL. revert HP HL.
  unfold valid_samples, filter.
  destruct (isnan a) eqn:Ha, (isnan b) eqn:Hb, (isnan c) eqn:Hc;
    cbn [negb length]; intros HP HL;
    destruct l as [|x [|y [|z [|t l]]]]; try discriminate HL;
    try congruence; cbn [length Nat.div Nat.divmod fst nth];
    try (apply Permutation_length_1_inv in HP; injection HP as ->;
         now apply SFeqb_refl);
    try (now apply (median_of_sorted_2 _ _ [x; y]));
    now apply (median_of_sorted_3 _ _ _ [x; y; z]).
Qed.

(** C5: when the three samples are all invalid, the filter returns the
    invalid marker, "no data". *)
Theorem median3_all_invalid (junk : nat -> float) (a b c : float) :
  isnan a = true -> isnan b = true -> isnan c = true ->
  median3_ignoreNaN junk a b c = NAN.
Proof.
  intros Ha Hb Hc. rewrite median3_closed_form.
  unfold valid_samples, filter. now rewrite Ha, Hb, Hc.
Qed.

Lemma median3_all_invalid_witness :
  median3_ignoreNaN zeros NAN NAN NAN = NAN.
Proof. apply (median3_all_invalid zeros NAN NAN NAN); reflexivity. Defined.

Lemma median3_in_samples (junk : nat -> float) (a b c : float) :
  let r := median3_ignoreNaN junk a b c in
  (valid_samples [a; b; c] = [] /\ r = NAN)
  \/ In r (valid_samples [a; b; c]).
Proof.
  cbv zeta. rewrite median3_closed_form.
  unfold valid_samples, filter.
  destruct (isnan a), (isnan b), (isnan c); cbn [negb median_of];
    auto; right;
    repeat match goal with
           | |- context [if fgt ?x ?y then _ else _] => destruct (fgt x y)
           end; simpl; auto.
Qed.

(** C9: whatever the three samples are, the result of the filter is either
    "no data" (and then no sample was valid) or one of the valid samples it
    was given; it owes nothing to what the array held before. *)
Theorem median3_is_an_input (junk : nat -> float) (a b c : float) :
  let r := median3_ignoreNaN junk a b c in
  ((valid_samples [a; b; c] = [] /\ r = NAN)
   \/ (In r (valid_samples [a; b; c]) /\ In r [a; b; c] /\ isnan r = false))
  /\ forall junk', median3_ignoreNaN junk' a b c = r.
Proof.
  split; [|intros junk'; apply median3_junk_irrelevant].
  destruct (median3_in_samples junk a b c) as [H|H]; [left; exact H|].
  right. split; [exact H|]. apply valid_samples_valid, H.
Qed.

(** C1: when exactly two of the three samples are valid, with values
    [a <= b], the filter returns [b], the larger one: the result is one of
    the two, it equals [b] (it is [b] itself as soon as [a < b]), and it is
    no value below [b], so neither the smaller sample nor a mean of the
    two. *)
Theorem median3_two_valid (junk : nat -> float) (s1 s2 s3 a b : float) :
  Permutation (valid_samples [s1; s2; s3]) [a; b] -> fle a b ->
  let r := median3_ignoreNaN junk s1 s2 s3 in
  SFeqb r b = true /\ (r = a \/ r = b) /\
  (SFltb a b = true -> r = b) /\
  (forall m, SFltb m b = true -> r <> m).
Proof.
  intros HP Hle. cbv zeta. rewrite median3_closed_form.
  unfold valid_samples, filter in *.
  destruct (isnan s1), (isnan s2), (isnan s3); cbn [negb] in *;
    try (apply Permutation_length in HP; discriminate);
    now apply median_of_two.
Qed.

Lemma median3_two_valid_witness :
  SFeqb (median3_ignoreNaN zeros f30 NAN f10) f30 = true.
Proof.
  apply (median3_two_valid zeros f30 NAN f10 f10 f30);
    [apply perm_swap | reflexivity].
Defined.

(** C2: when the three samples are valid, the filter returns their median:
    the three values can be laid out in ascending order with the result in
    the middle, and the middle of any ascending layout of them equals the
    result. *)
Theorem median3_three_valid (junk : nat -> float) (a b c : float) :
  isnan a = false -> isnan b = false -> isnan c = false ->
  let r := median3_ignoreNaN junk a b c in
  (exists lo hi, Permutation [lo; r; hi] [a; b; c] /\ fle lo r /\ fle r hi)
  /\ (forall l, Permutation l [a; b; c] -> Sorted fle l ->
                SFeqb r (nth 1 l NAN) = true).
Proof.
  intros Ha Hb Hc. cbv zeta. rewrite median3_closed_form.
  unfold valid_samples, filter. rewrite Ha, Hb, Hc. cbn [negb].
  split; [|intros l HP HS; now apply median_of_sorted_3].
  cbn [median_of].
  destruct (fgt a b) eqn:Eab, (fgt a c) eqn:Eac, (fgt b c) eqn:Ebc.
  - exists c, a. repeat split; [perm3 | |]; now apply fgt_true_le.
  - exists b, a. repeat split;
      [perm3 | now apply fgt_false_le | now apply fgt_true_le].
  - exists b, c. repeat split;
      [perm3 | now apply fgt_true_le | now apply fgt_false_le].
  - exists b, c. repeat split;
      [perm3 | now apply fgt_true_le | now apply fgt_false_le].
  - exists c, b. repeat split;
      [perm3 | now apply fgt_true_le | now apply fgt_false_le].
  - exists a, c. repeat split; [perm3 | |]; now apply fgt_false_le.
  - exists a, b. repeat split;
      [perm3 | now apply fgt_false_le | now apply fgt_true_le].
  - exists a, c. repeat split; [perm3 | |]; now apply fgt_false_le.
Qed.

Lemma median3_three_valid_witness :
  exists lo hi,
    Permutation [lo; median3_ignoreNaN zeros f10 f30 f20; hi] [f10; f30; f20]
    /\ fle lo (median3_ignoreNaN zeros f10 f30 f20)
    /\ fle (median3_ignoreNaN zeros f10 f30 f20) hi.
Proof.
  apply (median3_three_valid zeros f10 f30 f20); reflexivity.
Defined.

(** The examples of the specification. *)
Example median3_10_30_20 : median3_ignoreNaN zeros f10 f30 f20 = f20.
Proof. reflexivity. Qed.

Example median3_10_NA_30 : median3_ignoreNaN zeros f10 NAN f30 = f30.
Proof. reflexivity. Qed.

(* ================================================================= *)
(** * Ranger *)

Lemma bind_run {A B} (m : M A) (k : A -> M B) (w : world) a w' :
  m w = (a, w') -> bind m k w = k a w'.
Proof. intros H. unfold bind. now rewrite H. Qed.

Lemma skipn_length_app {A} (l1 l2 : list A) :
  skipn (length l1) (l1 ++ l2) = l2.
Proof. induction l1; simpl; auto. Qed.

Lemma events_of_run {A} (m : M A) (w : world) a e p l :
  m w = (a, mkWorld e p (trace w ++ l)) -> events_of m w = l.
Proof.
  intros H. unfold events_of. rewrite H. cbn [snd trace].
  apply skipn_length_app.
Qed.

(** One call of [pingOnce]: the wires see one ping, and the result is the
    Ranger of the specification applied to what [pulseIn] answered. *)
Lemma pingOnce_run (w : world) :
  pingOnce w =
    ((sample (echo w) (pings w), answer (echo w) (pings w)),
     mkWorld (echo w) (S (pings w))
             (trace w ++ ping_events (answer (echo w) (pings w)))).
Proof.
  unfold pingOnce, sample, Ranger, Ranger_distance, answer, SOUND_CM_PER_US.
  unfold bind, digitalWrite, delayMicroseconds, pulseIn, emit, ret; simpl.
  repeat rewrite <- app_assoc. simpl.
  destruct (ulong (echo w (pings w)) =? 0); [reflexivity|].
  destruct (fgt _ lit_400_0); reflexivity.
Qed.

(** C3: for an observed echo of duration [d > 0] the Ranger computes
    (d * 0.0343) / 2; above 400 cm it returns invalid although a duration
    was observed, otherwise it returns that distance, which is a number. *)
Theorem pingOnce_observed (w : world) (d : Z) :
  answer (echo w) (pings w) = d -> 0 < d ->
  let cm := fdiv (fmul (float_of_ulong d) lit_0_0343) lit_2_0 in
  (fgt cm lit_400_0 = true -> fst (pingOnce w) = (NAN, d))
  /\ (fgt cm lit_400_0 = false ->
      fst (pingOnce w) = (cm, d) /\ isnan cm = false).
Proof.
  intros Hd Hpos. cbv zeta. rewrite pingOnce_run. cbn [fst].
  unfold sample, Ranger. rewrite Hd.
  replace (d =? 0) with false by (symmetry; apply Z.eqb_neq; lia).
  fold (Ranger_distance d).
  split; intros E; rewrite E; cbn [float_of_reading]; [reflexivity|].
  split; [reflexivity | apply Ranger_distance_valid].
Qed.

Lemma pingOnce_observed_witness :
  fst (pingOnce (boot (fun _ => 23324))) = (NAN, 23324)
  /\ fst (pingOnce (boot (fun _ => 583)))
     = (S754_finite false 10484135 (-20), 583).
Proof.
  split.
  - apply (pingOnce_observed (boot (fun _ => 23324)) 23324);
      [reflexivity | lia | reflexivity].
  - apply (pingOnce_observed (boot (fun _ => 583)) 583);
      [reflexivity | lia | reflexivity].
Defined.

(** C4: when the measurement times out, that is when [pulseIn] answers 0,
    the Ranger returns invalid. *)
Theorem pingOnce_timeout (w : world) :
  answer (echo w) (pings w) = 0 -> fst (pingOnce w) = (NAN, 0).
Proof.
  intros H. rewrite pingOnce_run. cbn [fst]. unfold sample. now rewrite H.
Qed.

Lemma pingOnce_timeout_witness : fst (pingOnce (boot silent)) = (NAN, 0).
Proof. apply (pingOnce_timeout (boot silent)). reflexivity. Defined.

(** The Ranger is invalid in these two cases only. *)
Lemma pingOnce_invalid_iff (w : world) :
  let d := answer (echo w) (pings w) in
  isnan (fst (fst (pingOnce w))) = true
  <-> d = 0 \/ fgt (Ranger_distance d) lit_400_0 = true.
Proof.
  cbv zeta. rewrite pingOnce_run. cbn [fst]. unfold sample, Ranger.
  destruct (answer (echo w) (pings w) =? 0) eqn:E0.
  - apply Z.eqb_eq in E0. cbn. tauto.
  - apply Z.eqb_neq in E0.
    destruct (fgt (Ranger_distance _) lit_400_0) eqn:E; cbn.
    + tauto.
    + rewrite Ranger_distance_valid. split; [discriminate|].
      intros [H|H]; congruence.
Qed.

(** A valid sample lies between 0 and 400 cm. *)
Lemma sample_in_range (e : nat -> Z) (p : nat) :
  isnan (sample e p) = false ->
  fle (S754_zero false) (sample e p) /\ fle (sample e p) lit_400_0.
Proof.
  unfold sample, Ranger.
  destruct (answer e p =? 0); [discriminate|].
  destruct (fgt (Ranger_distance _) lit_400_0) eqn:E; [discriminate|].
  cbn [float_of_reading]. intros Hv. split.
  - apply plus_signed_ge_zero, Ranger_distance_plus.
    unfold answer, ulong. apply Z.mod_pos_bound. reflexivity.
  - now apply fgt_false_le.
Qed.

(** So does what the filter makes of three samples. *)
Lemma filtered_in_range (junk : nat -> float) (e : nat -> Z) (p : nat) :
  isnan (filtered junk e p) = false ->
  fle (S754_zero false) (filtered junk e p)
  /\ fle (filtered junk e p) lit_400_0.
Proof.
  unfold filtered. intros Hv.
  destruct (median3_in_samples junk (sample e p) (sample e (1 + p))
              (sample e (2 + p))) as [[_ H]|H].
  - rewrite H in Hv. discriminate.
  - apply valid_samples_valid in H. destruct H as [H Hr].
    cbn [In] in H.
    destruct H as [H|[H|[H|[]]]]; rewrite <- H in *; now apply sample_in_range.
Qed.

(* ================================================================= *)
(** * Sweeper *)

(** ** One cycle, and the loops as lists of visits *)

Lemma measure_run junk (a : Z) (w : world) :
  measureAndPrintAtAngle junk a w =
    (tt, mkWorld (echo w) (3 + pings w)
           (trace w ++ cycle_events a (echo w) (pings w)
                         (value_token (filtered junk (echo w) (pings w))))).
Proof.
  unfold measureAndPrintAtAngle.
  unfold bind at 1 2. unfold servo_write, delay, emit at 1 2. simpl.
  rewrite (bind_run _ _ _ _ _ (pingOnce_run _)). simpl.
  unfold bind at 1. unfold emit at 1. simpl.
  rewrite (bind_run _ _ _ _ _ (pingOnce_run _)). simpl.
  unfold bind at 1. unfold emit at 1. simpl.
  rewrite (bind_run _ _ _ _ _ (pingOnce_run _)). simpl.
  unfold filtered, value_token, cycle_events.
  unfold bind, Serial_print, Serial_println, emit. simpl.
  destruct (isnan _); simpl; repeat rewrite <- app_assoc; reflexivity.
Qed.

Lemma up_from_S a n : up_from a (S n) = a :: up_from (a + 1) n.
Proof.
  unfold up_from. simpl. f_equal; [lia|].
  rewrite <- seq_shift, map_map. apply map_ext. intros; lia.
Qed.

Lemma down_from_S a n : down_from a (S n) = a :: down_from (a - 1) n.
Proof.
  unfold down_from. simpl. f_equal; [lia|].
  rewrite <- seq_shift, map_map. apply map_ext. intros; lia.
Qed.

Lemma for_up_each body hi fuel : forall a w,
  (Z.to_nat (hi + 1 - a) < fuel)%nat ->
  for_up fuel a hi body w = each (up_from a (Z.to_nat (hi + 1 - a))) body w.
Proof.
  induction fuel as [|fuel IH]; intros a w Hf; [lia|].
  simpl. destruct (a <=? hi) eqn:E.
  - apply Z.leb_le in E.
    replace (Z.to_nat (hi + 1 - a)) with (S (Z.to_nat (hi + 1 - (a + 1)))) in * by lia.
    rewrite up_from_S. simpl. unfold bind. destruct (body a w) as [[] w'].
    apply IH. lia.
  - apply Z.leb_gt in E.
    replace (Z.to_nat (hi + 1 - a)) with 0%nat by lia. reflexivity.
Qed.

Lemma for_down_each body lo fuel : forall a w,
  (Z.to_nat (a + 1 - lo) < fuel)%nat ->
  for_down fuel a lo body w = each (down_from a (Z.to_nat (a + 1 - lo))) body w.
Proof.
  induction fuel as [|fuel IH]; intros a w Hf; [lia|].
  simpl. destruct (a >=? lo) eqn:E.
  - apply Z.geb_le in E.
    replace (Z.to_nat (a + 1 - lo)) with (S (Z.to_nat (a - 1 + 1 - lo))) in * by lia.
    rewrite down_from_S. simpl. unfold bind. destruct (body a w) as [[] w'].
    apply IH. lia.
  - rewrite Z.geb_leb in E. apply Z.leb_gt in E.
    replace (Z.to_nat (a + 1 - lo)) with 0%nat by lia. reflexivity.
Qed.

Lemma each_app l1 l2 body w :
  each (l1 ++ l2) body w = (each l1 body ;; each l2 body) w.
Proof.
  revert w. induction l1 as [|a l1 IH]; intros w; simpl.
  - reflexivity.
  - unfold bind in *. destruct (body a w) as [[] w']. rewrite IH.
    destruct (each l1 body w'). reflexivity.
Qed.

Section Runs.
Variable junk : nat -> float.

Lemma each_measure_run l : forall w,
  each l (measureAndPrintAtAngle junk) w =
    (tt, mkWorld (echo w) (3 * length l + pings w)
           (trace w ++ visits_events junk l (echo w) (pings w))).
Proof.
  induction l as [|a l IH]; intros w.
  - simpl. rewrite app_nil_r. destruct w; reflexivity.
  - cbn [each]. rewrite (bind_run _ _ _ _ _ (measure_run junk a w)).
    rewrite IH. cbn [echo pings trace visits_events length].
    f_equal. f_equal; [lia | now rewrite app_assoc].
Qed.

Lemma loop_each w :
  loop junk w = each (ascending ++ descending) (measureAndPrintAtAngle junk) w.
Proof.
  rewrite each_app. unfold loop, bind.
  rewrite (for_up_each _ 180 182 0 w) by (simpl; lia).
  change (up_from 0 (Z.to_nat (180 + 1 - 0))) with ascending.
  destruct (each ascending _ w) as [[] w'].
  rewrite (for_down_each _ 0 182 180 w') by (simpl; lia).
  reflexivity.
Qed.

Lemma loops_each n : forall w,
  loops junk n w = each (sweep n) (measureAndPrintAtAngle junk) w.
Proof.
  induction n as [|n IH]; intros w; [reflexivity|].
  unfold sweep. cbn [loops repeat concat]. rewrite each_app.
  unfold bind. rewrite loop_each.
  destruct (each (ascending ++ descending) _ w) as [[] w']. apply IH.
Qed.

Lemma sketch_run n e :
  sketch junk n (boot e) =
    (tt, mkWorld e (3 * length (sweep n))
           (setup_events ++ visits_events junk (sweep n) e 0)).
Proof.
  unfold sketch. unfold bind. 
  change (setup (boot e)) with (tt, mkWorld e 0 setup_events).
  cbv beta iota.
  rewrite loops_each, each_measure_run. cbn [echo pings trace].
  f_equal. f_equal. lia.
Qed.
End Runs.

Lemma lines_from_cycle a e p v rest :
  lines_from [] (cycle_events a e p v ++ rest)
  = [TInt a; TChar ","; v] :: lines_from [] rest.
Proof. reflexivity. Qed.

Lemma reported_cycle a e p v rest :
  reported_angles (cycle_events a e p v ++ rest) = a :: reported_angles rest.
Proof. reflexivity. Qed.

Lemma commanded_cycle a e p v rest :
  commanded_angles (cycle_events a e p v ++ rest) = a :: commanded_angles rest.
Proof. reflexivity. Qed.

Lemma delays_cycle a e p v rest :
  delays (cycle_events a e p v ++ rest) = 30 :: 10 :: 10 :: 60 :: delays rest.
Proof. reflexivity. Qed.

Section Obs.
Variable junk : nat -> float.

Lemma reported_visits l : forall e p,
  reported_angles (visits_events junk l e p) = l.
Proof.
  induction l as [|a l IH]; intros e p; [reflexivity|].
  cbn [visits_events]. rewrite reported_cycle, IH. reflexivity.
Qed.

Lemma commanded_visits l : forall e p,
  commanded_angles (visits_events junk l e p) = l.
Proof.
  induction l as [|a l IH]; intros e p; [reflexivity|].
  cbn [visits_events]. rewrite commanded_cycle, IH. reflexivity.
Qed.

Lemma lines_visits l : forall e p,
  lines_from [] (visits_events junk l e p) =
    map (fun i => [TInt (nth i l 0); TChar ",";
                   value_token (filtered junk e (3 * i + p))])
        (seq 0 (length l)).
Proof.
  induction l as [|a l IH]; intros e p; [reflexivity|].
  cbn [visits_events length]. rewrite lines_from_cycle, IH.
  cbn [seq map nth]. rewrite Nat.mul_0_r. cbn [Nat.add]. f_equal.
  rewrite <- seq_shift, map_map. apply map_ext. intros i.
  cbn [nth]. replace (3 * S i + p)%nat with (3 * i + (3 + p))%nat by lia.
  reflexivity.
Qed.
End Obs.

Lemma sweep_angle_period k : sweep_angle (362 + k) = sweep_angle k.
Proof.
  unfold sweep_angle.
  replace (Z.of_nat (362 + k)) with (Z.of_nat k + 1 * 362) by lia.
  rewrite Z.mod_add by lia. reflexivity.
Qed.

Lemma seq_shift_by k len : forall s, map (Nat.add k) (seq s len) = seq (k + s) len.
Proof.
  induction len as [|len IH]; intros s; [reflexivity|].
  simpl. f_equal. rewrite IH. f_equal. lia.
Qed.

Lemma sweep_closed_form n : sweep n = map sweep_angle (seq 0 (362 * n)).
Proof.
  induction n as [|n IH]; [reflexivity|].
  unfold sweep in *. cbn [repeat concat]. rewrite IH.
  replace (362 * S n)%nat with (362 + 362 * n)%nat by lia.
  rewrite seq_app, map_app.
  change (map sweep_angle (seq 0 362)) with (ascending ++ descending).
  f_equal. cbn [Nat.add].
  rewrite <- (map_ext _ _ sweep_angle_period), <- map_map. f_equal.
  exact (seq_shift_by 362 (362 * n) 0).
Qed.

(** ** The whole run *)

Section Run.

Variable junk : nat -> float.

Lemma sketch_trace (n : nat) (e : nat -> Z) :
  trace (snd (sketch junk n (boot e)))
  = setup_events ++ visits_events junk (sweep n) e 0.
Proof. now rewrite sketch_run. Qed.

Lemma sketch_reported (n : nat) (e : nat -> Z) :
  reported_angles (trace (snd (sketch junk n (boot e)))) = sweep n.
Proof.
  rewrite sketch_trace.
  change (reported_angles (setup_events ++ ?x)) with (reported_angles x).
  apply reported_visits.
Qed.

Lemma sweep_length (n : nat) : length (sweep n) = (362 * n)%nat.
Proof. now rewrite sweep_closed_form, length_map, length_seq. Qed.

Lemma sweep_nth (n i : nat) :
  (i < 362 * n)%nat -> nth i (sweep n) 0 = sweep_angle i.
Proof.
  intros H. rewrite sweep_closed_form.
  change 0 with (sweep_angle 0). rewrite map_nth. now rewrite seq_nth.
Qed.

Lemma sketch_lines (n : nat) (e : nat -> Z) :
  serial_lines (trace (snd (sketch junk n (boot e))))
  = [TStr "START"] :: map (report_line junk e) (seq 0 (362 * n)).
Proof.
  rewrite sketch_trace. unfold serial_lines.
  change (lines_from [] (setup_events ++ ?x))
    with ([TStr "START"] :: lines_from [] x).
  f_equal. rewrite lines_visits, sweep_length.
  apply map_ext_in. intros i Hi. apply in_seq in Hi.
  unfold report_line. rewrite sweep_nth by lia.
  now rewrite Nat.add_0_r.
Qed.

End Run.

Lemma sweep_angle_range (k : nat) : 0 <= sweep_angle k <= 180.
Proof.
  unfold sweep_angle.
  pose proof (Z.mod_pos_bound (Z.of_nat k) 362 eq_refl) as H.
  destruct (Z.of_nat k mod 362 <=? 180) eqn:E.
  - apply Z.leb_le in E. lia.
  - apply Z.leb_gt in E. lia.
Qed.

Lemma sweep_angle_offset (c i : nat) :
  (i < 362)%nat -> sweep_angle (362 * c + i) = sweep_angle i.
Proof.
  intros H. unfold sweep_angle.
  replace (Z.of_nat (362 * c + i)) with (Z.of_nat i + Z.of_nat c * 362) by lia.
  rewrite Z.mod_add by lia. reflexivity.
Qed.

Lemma loop_events (junk : nat -> float) (w : world) :
  events_of (loop junk) w
  = visits_events junk (ascending ++ descending) (echo w) (pings w).
Proof.
  eapply events_of_run. rewrite loop_each. apply each_measure_run.
Qed.

Lemma measure_events (junk : nat -> float) (a : Z) (w : world) :
  events_of (measureAndPrintAtAngle junk a) w
  = cycle_events a (echo w) (pings w)
      (value_token (filtered junk (echo w) (pings w))).
Proof. eapply events_of_run. apply measure_run. Qed.

Lemma measure_twice_events (junk : nat -> float) (a a' : Z) (w : world) :
  events_of (measureAndPrintAtAngle junk a ;; measureAndPrintAtAngle junk a') w
  = cycle_events a (echo w) (pings w)
      (value_token (filtered junk (echo w) (pings w)))
    ++ cycle_events a' (echo w) (3 + pings w)
         (value_token (filtered junk (echo w) (3 + pings w))).
Proof.
  eapply events_of_run.
  rewrite (bind_run _ _ _ _ _ (measure_run junk a w)), measure_run.
  cbn [echo pings trace]. now rewrite <- app_assoc.
Qed.

Lemma append_empty_r (s : string) : (s ++ "")%string = s.
Proof. induction s; simpl; congruence. Qed.

(** ** The sweep *)

(** C6, as the sketch behaves: the sweep visits 0,1,...,180 and then
    180,179,...,0, again and again, for as many calls of [loop] as one
    waits for; a pass goes through every angle once in steps of one degree,
    and the pass that follows starts on the angle the pass before ended on,
    which is therefore visited twice in a row. *)
Theorem sweep_visits (junk : nat -> float) (e : nat -> Z) (n : nat) :
  let visited := reported_angles (trace (snd (sketch junk n (boot e)))) in
  visited = concat (repeat (ascending ++ descending) n)
  /\ ascending = map Z.of_nat (seq 0 181)
  /\ descending = rev ascending
  /\ visited = map sweep_angle (seq 0 (362 * n))
  /\ length visited = (362 * n)%nat
  /\ commanded_angles (trace (snd (sketch junk n (boot e)))) = 0 :: visited.
Proof.
  cbv zeta. rewrite sketch_reported.
  split; [reflexivity|].
  split; [reflexivity|].
  split; [vm_compute; reflexivity|].
  split; [apply sweep_closed_form|].
  split; [apply sweep_length|].
  rewrite sketch_trace.
  change (commanded_angles (setup_events ++ ?x)) with (0 :: commanded_angles x).
  now rewrite commanded_visits.
Qed.

(** C6, as it is worded, fails: the visit after the first visit of 180 is
    180 again, where the sequence 0,1,...,180,179,... has 179. *)
Lemma sweep_not_triangle :
  ~ (forall (junk : nat -> float) (e : nat -> Z) (n k : nat),
        (k < 362 * n)%nat ->
        nth_error (reported_angles (trace (snd (sketch junk n (boot e))))) k
        = Some (triangle_angle k)).
Proof.
  intros H. specialize (H zeros silent 1%nat 181%nat ltac:(simpl; lia)).
  rewrite sketch_reported in H. vm_compute in H. discriminate H.
Qed.

(** C10: at each reversal the end angle is measured and reported twice in
    a row, as the last visit of a pass and as the first of the next: visits
    180 and 181 of a cycle are both at 180, visit 361 and visit 0 of the
    next cycle both at 0, and a cycle makes 362 report lines. *)
Theorem sweep_ends_twice (junk : nat -> float) (e : nat -> Z) (n : nat) :
  let tr := trace (snd (sketch junk n (boot e))) in
  reported_angles tr = map sweep_angle (seq 0 (362 * n))
  /\ serial_lines tr
     = [TStr "START"] :: map (report_line junk e) (seq 0 (362 * n))
  /\ (forall c : nat,
        sweep_angle (362 * c + 180) = 180
        /\ sweep_angle (362 * c + 181) = 180
        /\ sweep_angle (362 * c + 361) = 0
        /\ sweep_angle (362 * (c + 1)) = 0)
  /\ last ascending 0 = 180 /\ hd 0 descending = 180
  /\ last descending 180 = 0 /\ hd 180 ascending = 0
  /\ forall w, length (serial_lines (events_of (loop junk) w)) = 362%nat.
Proof.
  cbv zeta. rewrite sketch_reported, sketch_lines.
  split; [apply sweep_closed_form|].
  split; [reflexivity|].
  split.
  { intros c. rewrite !sweep_angle_offset by lia.
    replace (362 * (c + 1))%nat with (362 * (c + 1) + 0)%nat by lia.
    rewrite sweep_angle_offset by lia. repeat split. }
  repeat (split; [vm_compute; reflexivity|]).
  intros w. rewrite loop_events. unfold serial_lines.
  now rewrite lines_visits, length_map, length_seq.
Qed.

(** ** The report line *)

(** C7: each visit of an angle puts exactly one line on the serial port,
    made of the angle as a decimal integer, a comma, and either the token
    NA when the filter has no data or the filtered distance written with
    two fraction digits, a number between 0 and 400; the angles of a run
    are within 0..180. *)
Theorem one_report_line_per_angle (junk : nat -> float) :
  (forall (angle : Z) (w : world),
      let dmed := filtered junk (echo w) (pings w) in
      serial_lines (events_of (measureAndPrintAtAngle junk angle) w)
      = [[TInt angle; TChar ",";
          if isnan dmed then TStr "NA" else TFloat dmed 2]])
  /\ (forall (print_float : float -> Z -> string) (angle : Z) (dmed : float),
         line_text print_float
           [TInt angle; TChar ",";
            if isnan dmed then TStr "NA" else TFloat dmed 2]
         = (NilZero.string_of_int (Z.to_int angle) ++ ","
              ++ (if isnan dmed then "NA" else print_float dmed 2))%string)
  /\ (forall (e : nat -> Z) (n : nat),
         serial_lines (trace (snd (sketch junk n (boot e))))
         = [TStr "START"] :: map (report_line junk e) (seq 0 (362 * n)))
  /\ (forall k : nat, 0 <= sweep_angle k <= 180)
  /\ (forall (e : nat -> Z) (p : nat),
         isnan (filtered junk e p) = false ->
         fle (S754_zero false) (filtered junk e p)
         /\ fle (filtered junk e p) lit_400_0).
Proof.
  split; [|split; [|split; [|split]]].
  - intros angle w. cbv zeta. now rewrite measure_events.
  - intros print_float angle dmed. unfold line_text. cbn [fold_right].
    destruct (isnan dmed); cbn [token_text]; now rewrite append_empty_r.
  - intros e n. apply sketch_lines.
  - apply sweep_angle_range.
  - apply filtered_in_range.
Qed.

Lemma one_report_line_per_angle_witness :
  fle (S754_zero false) (filtered zeros (fun _ => 583) 0)
  /\ fle (filtered zeros (fun _ => 583) 0) lit_400_0.
Proof.
  apply (one_report_line_per_angle zeros). reflexivity.
Defined.

(** The end-to-end scenarios of the specification: at 45 degrees echoes of
    700 us (12.0 cm), none, and 729 us (12.5 cm) give the larger distance;
    at 170 degrees without any echo the line reads [170,NA]. *)
Example report_45 :
  serial_lines
    (events_of (measureAndPrintAtAngle zeros 45)
       (boot (fun k => match k with 0%nat => 700 | 1%nat => 0 | _ => 729 end)))
  = [[TInt 45; TChar ","; TFloat (S754_finite false 13109664 (-20)) 2]].
Proof. reflexivity. Qed.

Example report_170 :
  map (line_text (fun _ _ => EmptyString))
    (serial_lines (events_of (measureAndPrintAtAngle zeros 170) (boot silent)))
  = ["170,NA"%string].
Proof. reflexivity. Qed.

(** ** The order and the waits of a cycle *)

(** C8: at each angle the sketch commands the servo, waits 30 ms, pings,
    waits 10 ms, pings, waits 10 ms, pings, prints the line carrying the
    filter's result on these three samples, and waits 60 ms; the next cycle
    then starts with its own command and 30 ms wait, so that 60 ms and
    30 ms both elapse between the line of one angle and the first ping of
    the next. *)
Theorem cycle_order_and_waits (junk : nat -> float) (a a' : Z) (w : world) :
  let e := echo w in
  let p := pings w in
  let dmed :=
    median3_ignoreNaN junk (sample e p) (sample e (1 + p)) (sample e (2 + p)) in
  events_of (measureAndPrintAtAngle junk a) w
  = [ServoWrite a; Delay 30]
      ++ ping_events (answer e p) ++ [Delay 10]
      ++ ping_events (answer e (1 + p)) ++ [Delay 10]
      ++ ping_events (answer e (2 + p))
      ++ [SerialPrint (TInt a); SerialPrint (TChar ",");
          SerialPrintln (if isnan dmed then TStr "NA" else TFloat dmed 2)]
      ++ [Delay 60]
  /\ delays (events_of (measureAndPrintAtAngle junk a) w) = [30; 10; 10; 60]
  /\ (exists before after,
         events_of (measureAndPrintAtAngle junk a ;;
                    measureAndPrintAtAngle junk a') w
         = before ++ [Delay 60; ServoWrite a'; Delay 30] ++ after
         /\ delays before = [30; 10; 10]
         /\ delays after = [10; 10; 60])
  /\ delays (events_of (measureAndPrintAtAngle junk a ;;
                        measureAndPrintAtAngle junk a') w)
     = [30; 10; 10; 60; 30; 10; 10; 60].
Proof.
  cbv zeta. rewrite measure_events, measure_twice_events.
  split; [reflexivity|].
  split; [reflexivity|].
  split; [|reflexivity].
  exists (removelast
            (cycle_events a (echo w) (pings w)
               (value_token (filtered junk (echo w) (pings w))))),
         (skipn 2
            (cycle_events a' (echo w) (3 + pings w)
               (value_token (filtered junk (echo w) (3 + pings w))))).
  repeat split.
Qed.
